(** * The static interface pattern: binding an interface to an implementation

    A model of [static_interface/helpers.h] (the binder [type]),
    [static_interface/a.h] (the implementation [details::A] with the counter
    [details::g_count]) and [static_abstraction/b.cpp] ([B<T>::bar]).

    Objects live in a store indexed by addresses; a pointer names a complete
    object or a subobject of one. A member function is a transformer of its
    receiver and of the namespace-scope state, the two things the member
    functions of the repository reach, and a call through a pointer loads
    the receiver, runs the body and stores the receiver back. *)

From stdpp Require Import base option list gmap strings.
From Stdlib Require Import ZArith Ascii.

Local Open Scope Z_scope.

(** ** Outcomes of a call

    A call returns a value, leaves by an exception, or has no defined
    behaviour (a dangling receiver, a signed overflow). The state reached is
    kept in the first two cases. *)

Inductive outcome (E R S : Type) : Type :=
| Returns (r : R) (s : S)
| Throws (e : E) (s : S)
| Undefined.

Arguments Returns {E R S} r s.
Arguments Throws {E R S} e s.
Arguments Undefined {E R S}.

(** ** Pointers *)

Definition addr := positive.

(** [type<INTERFACE, DETAILS>*]: a complete object of the composed type. *)
Inductive type_ptr := type_at (l : addr).

(** [INTERFACE<type<INTERFACE, DETAILS>>*]: the base subobject of the
    composed object at [p]. *)
Inductive interface_ptr := base_of (p : type_ptr).

(** [B<T>*]: a complete object of type [B<T>]. *)
Inductive B_ptr := B_at (l : addr).

(** [DETAILS*]: the member [d] of a composed object, the member [m_a] of a
    [B], or a complete object of type [DETAILS]. *)
Inductive details_ptr :=
| d_of (p : type_ptr)
| m_a_of (q : B_ptr)
| DETAILS_at (l : addr).

(** A pointer to const: the pointee can be read through it, not written. *)
Inductive const_ptr (P : Type) := Const (p : P).
Arguments Const {P} p.

Definition pointee {P : Type} (c : const_ptr P) : P :=
  match c with Const p => p end.

#[global] Instance type_ptr_eq_dec : EqDecision type_ptr.
Proof. solve_decision. Defined.
#[global] Instance interface_ptr_eq_dec : EqDecision interface_ptr.
Proof. solve_decision. Defined.
#[global] Instance B_ptr_eq_dec : EqDecision B_ptr.
Proof. solve_decision. Defined.
#[global] Instance details_ptr_eq_dec : EqDecision details_ptr.
Proof. solve_decision. Defined.

(** The implicit conversion from a pointer to the composed type to a pointer
    to its public base. *)
Definition to_base (p : type_ptr) : interface_ptr := base_of p.

(** Modelled from the spec: b.h, which declares [B<T>] and its member [m_a],
    is not among the sources. b.cpp calls [m_a.foo()], and [B<T>] is taken to
    hold [m_a] by value, the way the binder of the spec holds its
    implementation instance. *)
Record B (T : Type) := mk_B { m_a : T }.
Arguments mk_B {T} m_a.
Arguments m_a {T} b.

(** ** helpers.h: the binder *)

Section helpers.
Context {G DETAILS : Type}.

(** [class type : public INTERFACE<type<INTERFACE, DETAILS>>]: the base
    holds no data, the only data member is [DETAILS d]. *)
Record type := mk_type { d : DETAILS }.

(** [using details_type = DETAILS;] *)
Definition details_type : Type := DETAILS.

(** [static_cast<type<INTERFACE, DETAILS> *>(i)] *)
Definition static_cast (i : interface_ptr) : type_ptr :=
  match i with base_of p => p end.

(** [&(p->d)] *)
Definition addr_d (p : type_ptr) : details_ptr := d_of p.

(** [constexpr static DETAILS* details(INTERFACE<...> *i)] *)
Definition details (i : interface_ptr) : details_ptr :=
  addr_d (static_cast i).

(** [constexpr static const DETAILS* details(const INTERFACE<...> *i)] *)
Definition details_const (i : const_ptr interface_ptr)
  : const_ptr details_ptr :=
  match i with
  | Const j => Const (addr_d (static_cast j))
  end.

(** *** The store *)

Inductive object :=
| O_type (t : type)         (* a complete type<INTERFACE, DETAILS> *)
| O_B (b : B DETAILS)       (* a complete B<DETAILS> *)
| O_DETAILS (x : DETAILS).  (* a complete DETAILS *)

(** The state of a program: the namespace-scope state [G] and the store. *)
Record world := mk_world { glob : G; heap : gmap addr object }.

Definition load (p : details_ptr) (h : gmap addr object) : option DETAILS :=
  match p with
  | d_of (type_at l) =>
      match h !! l with Some (O_type t) => Some (d t) | _ => None end
  | m_a_of (B_at l) =>
      match h !! l with Some (O_B b) => Some (m_a b) | _ => None end
  | DETAILS_at l =>
      match h !! l with Some (O_DETAILS x) => Some x | _ => None end
  end.

(** Writing [x] through [p]; used only where [load p h] has succeeded. *)
Definition store (p : details_ptr) (x : DETAILS) (h : gmap addr object)
  : gmap addr object :=
  match p with
  | d_of (type_at l) => <[l := O_type (mk_type x)]> h
  | m_a_of (B_at l) => <[l := O_B (mk_B x)]> h
  | DETAILS_at l => <[l := O_DETAILS x]> h
  end.

Definition load_const (p : const_ptr details_ptr) (h : gmap addr object)
  : option DETAILS :=
  load (pointee p) h.

(** The composed object that embeds the implementation instance at [p]. *)
Definition owner (p : details_ptr) : option type_ptr :=
  match p with d_of q => Some q | _ => None end.

(** *** Member functions and calls *)

(** A non-static member function of [DETAILS] with result type [R]. *)
Definition method (E R : Type) : Type :=
  DETAILS → G → outcome E R (DETAILS * G).

(** A static member function. *)
Definition static_method (E R : Type) : Type := G → outcome E R G.

(** The receiver and the namespace-scope state a body leaves are written
    back: [put] places the receiver in the store. *)
Definition write_back {E R : Type} (o : outcome E R (DETAILS * G))
    (put : DETAILS → gmap addr object) : outcome E R world :=
  match o with
  | Returns r (x', g') => Returns r (mk_world g' (put x'))
  | Throws e (x', g') => Throws e (mk_world g' (put x'))
  | Undefined => Undefined
  end.

(** [this->m(...)] for [this : DETAILS*]; the behaviour is undefined when
    no [DETAILS] lives at [this]. *)
Definition call {E R : Type} (m : method E R) (this : details_ptr)
    (w : world) : outcome E R world :=
  match load this (heap w) with
  | None => Undefined
  | Some x => write_back (m x (glob w)) (λ x', store this x' (heap w))
  end.

(** [DETAILS::m(...)] for a static [m]. *)
Definition call_static {E R : Type} (m : static_method E R) (w : world)
  : outcome E R world :=
  match m (glob w) with
  | Returns r g' => Returns r (mk_world g' (heap w))
  | Throws e g' => Throws e (mk_world g' (heap w))
  | Undefined => Undefined
  end.

(** Modelled from the spec: a_interface.h, which defines the interface
    template, is not among the sources. By section 4.2 of the specification
    each operation obtains the pointer to the bound implementation through
    the accessor, invokes the corresponding implementation method and
    propagates its result unchanged. *)
Definition interface_call {E R : Type} (m : method E R)
    (this : interface_ptr) (w : world) : outcome E R world :=
  call m (details this) w.

(** Modelled from the spec: the same for a static operation, which needs no
    instance: [T::details_type::m()]. *)
Definition interface_call_static {E R : Type} (m : static_method E R)
    (w : world) : outcome E R world :=
  call_static m w.

(** *** Construction and destruction of composed objects *)

(** [type<INTERFACE, DETAILS> a;] at a fresh address: the implicit default
    constructor default-constructs the member [d]; [ctor] is the value
    [DETAILS::DETAILS()] leaves. *)
Definition new_type (ctor : DETAILS) (w : world) : type_ptr * world :=
  let l := fresh (dom (heap w)) in
  (type_at l, mk_world (glob w) (<[l := O_type (mk_type ctor)]> (heap w))).

Fixpoint new_types (ctor : DETAILS) (n : nat) (w : world)
  : list type_ptr * world :=
  match n with
  | O => ([], w)
  | S k =>
      let '(p, w1) := new_type ctor w in
      let '(ps, w2) := new_types ctor k w1 in
      (p :: ps, w2)
  end.

(** The end of the lifetime of the composed object at [p]; its member [d]
    goes with it. *)
Definition delete_type (p : type_ptr) (w : world) : option world :=
  match p with
  | type_at l =>
      match heap w !! l with
      | Some (O_type _) => Some (mk_world (glob w) (delete l (heap w)))
      | _ => None
      end
  end.

(** An implementation instance lives at [p]. *)
Definition live (p : details_ptr) (w : world) : Prop :=
  is_Some (load p (heap w)).

End helpers.

Arguments type : clear implicits.
Arguments object : clear implicits.
Arguments world : clear implicits.
Arguments method : clear implicits.
Arguments static_method : clear implicits.
Arguments write_back {G DETAILS E R} o put.

(** ** b.cpp: [B<T>::bar] *)

Section static_abstraction.
Context {G T E : Type}.

(** The member function [foo] that the template requires of [T]. *)
Variable foo : method G T E unit.

(** [&this->m_a] *)
Definition addr_m_a (this : B_ptr) : details_ptr := m_a_of this.

(** [template<typename T> void B<T>::bar() { m_a.foo(); }] *)
Definition bar (this : B_ptr) (w : world G T) : outcome E unit (world G T) :=
  call foo (addr_m_a this) w.

End static_abstraction.

(** ** a.h: the example implementation *)

(** ** The output stream [std::cout]

    The model follows the requirements the standard puts on the output
    functions that [func0] uses. The stream buffer is taken to hold the
    characters inserted until it is synchronised, so a write can fail only
    then; [std::cout] keeps the stream buffer and the locale it starts with
    and is tied to no other stream. *)

(** [std::ios_base::failure], the only exception the stream throws. *)
Inductive exception := ios_base_failure.

(** [std::ios_base::iostate] *)
Record iostate :=
  mk_iostate { has_badbit : bool; has_failbit : bool; has_eofbit : bool }.

Definition goodbit : iostate := mk_iostate false false false.
Definition badbit : iostate := mk_iostate true false false.
Definition failbit : iostate := mk_iostate false true false.

(** [a | b] *)
Definition iostate_or (a b : iostate) : iostate :=
  mk_iostate (has_badbit a || has_badbit b) (has_failbit a || has_failbit b)
    (has_eofbit a || has_eofbit b).

(** [(a & b) != 0] *)
Definition iostate_meets (a b : iostate) : bool :=
  (has_badbit a && has_badbit b) || (has_failbit a && has_failbit b)
  || (has_eofbit a && has_eofbit b).

(** The two points the standard leaves to the library: whether the sentry
    of a stream that is not good calls [setstate(failbit)], given the
    state of the stream, and whether [flush] constructs a sentry. *)
Record library := mk_library {
  sentry_sets_failbit : iostate → bool;
  flush_constructs_sentry : bool
}.

(** The state of the stream: the error state [rdstate()], the exception
    mask [exceptions()], the pending field width [width()], the fill
    character [fill()], whether [(flags() & adjustfield) == left], the
    flag [unitbuf], the characters held by the stream buffer, the
    characters that reached the standard output, whether the standard
    output takes what is written to it, and the library. *)
Record ostream := mk_ostream {
  rdstate : iostate;
  exceptions : iostate;
  width : Z;
  fill : ascii;
  adjustfield_left : bool;
  unitbuf : bool;
  buffer : string;
  sink : string;
  device_accepts : bool;
  lib : library
}.

(** [os.good()] *)
Definition good (os : ostream) : bool :=
  negb (has_badbit (rdstate os) || has_failbit (rdstate os)
        || has_eofbit (rdstate os)).

Definition with_rdstate (st : iostate) (os : ostream) : ostream :=
  mk_ostream st (exceptions os) (width os) (fill os) (adjustfield_left os)
    (unitbuf os) (buffer os) (sink os) (device_accepts os) (lib os).

(** The sequence [seq] goes into the stream buffer. *)
Definition sputn (seq : string) (os : ostream) : ostream :=
  mk_ostream (rdstate os) (exceptions os) (width os) (fill os)
    (adjustfield_left os) (unitbuf os) (buffer os +:+ seq) (sink os)
    (device_accepts os) (lib os).

(** [os.width(0)] *)
Definition width_0 (os : ostream) : ostream :=
  mk_ostream (rdstate os) (exceptions os) 0 (fill os) (adjustfield_left os)
    (unitbuf os) (buffer os) (sink os) (device_accepts os) (lib os).

(** [os.setstate(st)]: the bits are added to the error state, and
    [ios_base::failure] is thrown when a bit of the exception mask is
    set. *)
Definition setstate (st : iostate) (os : ostream)
  : outcome exception unit ostream :=
  let os' := with_rdstate (iostate_or (rdstate os) st) os in
  if iostate_meets (rdstate os') (exceptions os')
  then Throws ios_base_failure os'
  else Returns tt os'.

(** [os.rdbuf()->pubsync()]: what the stream buffer holds is written to the
    standard output; the result tells whether that succeeded. With nothing
    to write there is nothing to fail. *)
Definition pubsync (os : ostream) : bool * ostream :=
  if device_accepts os
  then (true,
        mk_ostream (rdstate os) (exceptions os) (width os) (fill os)
          (adjustfield_left os) (unitbuf os) "" (sink os +:+ buffer os)
          (device_accepts os) (lib os))
  else if decide (buffer os = "") then (true, os) else (false, os).

(** The constructor of [ostream::sentry]: the result tells whether the
    stream is good, in which case output goes ahead. *)
Definition sentry (os : ostream) : outcome exception bool ostream :=
  if good os then Returns true os
  else if sentry_sets_failbit (lib os) (rdstate os)
  then match setstate failbit os with
       | Returns _ os' => Returns false os'
       | Throws e os' => Throws e os'
       | Undefined => Undefined
       end
  else Returns false os.

(** The destructor of the sentry: with [unitbuf] set and the stream good
    the buffer is synchronised, and a failure sets [badbit] without
    throwing. *)
Definition sentry_end (os : ostream) : ostream :=
  if unitbuf os && good os
  then match pubsync os with
       | (true, os') => os'
       | (false, os') => with_rdstate (iostate_or (rdstate os') badbit) os'
       end
  else os.

(** [n] copies of the character [c]. *)
Fixpoint fill_characters (n : nat) (c : ascii) : string :=
  match n with
  | O => ""
  | S k => String c (fill_characters k c)
  end.

(** The padding of a formatted output function: a sequence shorter than
    [os.width()] is padded to that width with [os.fill()], after the
    sequence when the adjustment is [left], before it otherwise. *)
Definition pad (seq : string) (os : ostream) : string :=
  let n := Z.to_nat (width os - Z.of_nat (String.length seq)) in
  if adjustfield_left os
  then seq +:+ fill_characters n (fill os)
  else fill_characters n (fill os) +:+ seq.

(** [os << s] for a character string [s]: a formatted output function.
    After the sentry, the padded sequence is inserted and the width is
    reset; a stream that is not good takes nothing. *)
Definition put (s : string) (os : ostream) : outcome exception unit ostream :=
  match sentry os with
  | Returns true os1 =>
      Returns tt (sentry_end (width_0 (sputn (pad s os1) os1)))
  | Returns false os1 => Returns tt os1
  | Throws e os1 => Throws e os1
  | Undefined => Undefined
  end.

(** [os.put(c)]: an unformatted output function. *)
Definition put_character (c : ascii) (os : ostream)
  : outcome exception unit ostream :=
  match sentry os with
  | Returns true os1 => Returns tt (sentry_end (sputn (String c "") os1))
  | Returns false os1 => Returns tt os1
  | Throws e os1 => Throws e os1
  | Undefined => Undefined
  end.

(** The stream buffer is synchronised; a failure calls
    [setstate(badbit)], which may throw. *)
Definition sync_or_badbit (os : ostream) : outcome exception unit ostream :=
  match pubsync os with
  | (true, os') => Returns tt os'
  | (false, os') => setstate badbit os'
  end.

(** [os.flush()] *)
Definition flush (os : ostream) : outcome exception unit ostream :=
  if flush_constructs_sentry (lib os)
  then match sentry os with
       | Returns true os1 =>
           match sync_or_badbit os1 with
           | Returns _ os2 => Returns tt (sentry_end os2)
           | Throws e os2 => Throws e os2
           | Undefined => Undefined
           end
       | Returns false os1 => Returns tt os1
       | Throws e os1 => Throws e os1
       | Undefined => Undefined
       end
  else sync_or_badbit os.

(** [os << std::endl]: [os.put(os.widen('\n'))], then [os.flush()]. *)
Definition endl (os : ostream) : outcome exception unit ostream :=
  match put_character "010"%char os with
  | Returns _ os1 => flush os1
  | Throws e os1 => Throws e os1
  | Undefined => Undefined
  end.

(** The library whose sentry sets [failbit] on a bad stream and whose
    [flush] constructs a sentry, and [std::cout] as a program finds it:
    good, nothing thrown, no width, filling with spaces, not adjusted to
    the left, not unit-buffered, empty, on a standard output that takes
    what is written. *)
Definition a_library : library := mk_library has_badbit true.

Definition initial_cout : ostream :=
  mk_ostream goodbit goodbit 0 " "%char false false "" "" true a_library.

(** The namespace-scope state of a.h: [details::g_count] and [std::cout]. *)
Record globals := mk_globals { g_count : Z; cout : ostream }.

(** [int] is 32 bits wide on the platforms the project builds for. *)
Definition INT_MAX : Z := 2147483647.

(** Static storage is zero-initialised. *)
Definition initial_globals : globals := mk_globals 0 initial_cout.

Module details.

(** [class A]: no data members. *)
Record A := mk_A { }.

(** [void foo() { g_count += 1; }]: the counter is read, incremented and
    written back; the increment of a signed [int] that holds [INT_MAX]
    overflows, which has no defined behaviour. *)
Definition foo {E : Type} : method globals A E unit :=
  λ this g,
    if decide (g_count g < INT_MAX)
    then Returns tt (this, mk_globals (g_count g + 1) (cout g))
    else Undefined.

(** [static void func0() {std::cout << "calling static f0()" << std::endl;}]:
    the two insertions in a row; an exception of the first leaves the
    function before the second. *)
Definition func0 : static_method globals exception unit :=
  λ g,
    match put "calling static f0()" (cout g) with
    | Returns _ os1 =>
        match endl os1 with
        | Returns _ os2 => Returns tt (mk_globals (g_count g) os2)
        | Throws e os2 => Throws e (mk_globals (g_count g) os2)
        | Undefined => Undefined
        end
    | Throws e os1 => Throws e (mk_globals (g_count g) os1)
    | Undefined => Undefined
    end.

End details.

(** [using A = type<interface::A, details::A>;] *)
Definition A : Type := type details.A.

Module interface.

(** Modelled from the spec: [interface::A<T>] of a_interface.h, which is
    not among the sources; its operations forward to the operations of the
    same name of the bound implementation. *)
Definition foo {E : Type} (this : interface_ptr) (w : world globals details.A)
  : outcome E unit (world globals details.A) :=
  interface_call details.foo this w.

Definition func0 (w : world globals details.A)
  : outcome exception unit (world globals details.A) :=
  interface_call_static details.func0 w.

End interface.

(** The counter that [foo] invoked on the instance at [p] reads and
    increments: [details::g_count], whichever instance [p] points to. *)
Definition counter (p : details_ptr) (w : world globals details.A) : Z :=
  g_count (glob w).

(** A sequence of calls of [foo], each on the instance named. *)
Fixpoint foo_all {E : Type} (ps : list details_ptr)
    (w : world globals details.A) : outcome E unit (world globals details.A) :=
  match ps with
  | [] => Returns tt w
  | p :: qs =>
      match call details.foo p w with
      | Returns _ w1 => foo_all qs w1
      | Throws e w1 => Throws e w1
      | Undefined => Undefined
      end
  end.

(** The stream prints a line of [func0] as written: it is good, the
    pending width is not above the 19 characters of the message, and the
    standard output takes what is written to it. *)
Definition ready (os : ostream) : Prop :=
  good os = true ∧ width os ≤ 19 ∧ device_accepts os = true.

(** No bit of the exception mask is set, as [std::cout] starts. *)
Definition quiet (os : ostream) : Prop := exceptions os = goodbit.

(** All the characters inserted into the stream so far. *)
Definition output (os : ostream) : string := sink os +:+ buffer os.

(** [n] successive calls of a static operation through the interface. *)
Fixpoint func0_times (n : nat) (w : world globals details.A)
  : outcome exception unit (world globals details.A) :=
  match n with
  | O => Returns tt w
  | S k =>
      match interface.func0 w with
      | Returns _ w1 => func0_times k w1
      | Throws e w1 => Throws e w1
      | Undefined => Undefined
      end
  end.

(** ** Access to the members of [type]

    The class is declared with the class-key [class] and has no access
    specifier, so its members [details_type], [d] and the two overloads of
    [details] are private; its only friend is
    [INTERFACE<type<INTERFACE, DETAILS>>]. Templates and implementation
    types are named by strings. *)

Inductive class_name :=
| class_type (INTERFACE DETAILS : string)
| class_INTERFACE (INTERFACE : string) (T : class_name)
| class_other (n : string).

#[global] Instance class_name_eq_dec : EqDecision class_name.
Proof. solve_decision. Defined.

Inductive member :=
| member_details_type
| member_d
| member_details
| member_details_const.

Inductive access := access_public | access_private.

Definition access_of (m : member) : access :=
  match m with
  | member_details_type => access_private
  | member_d => access_private
  | member_details => access_private
  | member_details_const => access_private
  end.

(** [friend class INTERFACE<type<INTERFACE, DETAILS>>;] *)
Definition friends (INTERFACE DETAILS : string) : list class_name :=
  [class_INTERFACE INTERFACE (class_type INTERFACE DETAILS)].

(** Whether code of class [from] may name member [m] of
    [type<INTERFACE, DETAILS>]. *)
Definition accessible (from : class_name) (INTERFACE DETAILS : string)
    (m : member) : bool :=
  match access_of m with
  | access_public => true
  | access_private =>
      bool_decide (from = class_type INTERFACE DETAILS)
      || bool_decide (from ∈ friends INTERFACE DETAILS)
  end.

(** ** What an observer compares *)

(** The state an outcome leaves, if any. *)
Definition reached {E R S : Type} (o : outcome E R S) : option S :=
  match o with
  | Returns _ s => Some s
  | Throws _ s => Some s
  | Undefined => None
  end.

(** Two calls, one on the instance at [p1] and one on the instance at [p2],
    have the same observable effect: the same kind of outcome with the same
    result or exception, the same namespace-scope state, and the same state
    of the instance called. *)
Definition same_effect {G DETAILS E R : Type} (p1 p2 : details_ptr)
    (o1 o2 : outcome E R (world G DETAILS)) : Prop :=
  match o1, o2 with
  | Returns r1 w1, Returns r2 w2 =>
      r1 = r2 ∧ glob w1 = glob w2 ∧
      load p1 (heap w1) = load p2 (heap w2) ∧ is_Some (load p1 (heap w1))
  | Throws e1 w1, Throws e2 w2 =>
      e1 = e2 ∧ glob w1 = glob w2 ∧
      load p1 (heap w1) = load p2 (heap w2) ∧ is_Some (load p1 (heap w1))
  | Undefined, Undefined => True
  | _, _ => False
  end.

(** The state within reach of the operations invoked through the interface
    base at [j]: the implementation instance embedded in that composed
    object, and the namespace-scope state, which the body of every member
    function can read and write. *)
Definition reachable_state {G DETAILS : Type} (j : interface_ptr)
    (w : world G DETAILS) : option DETAILS * G :=
  (load (details j) (heap w), glob w).

(** The address of the complete object a [DETAILS*] points into. *)
Definition root (p : details_ptr) : addr :=
  match p with
  | d_of (type_at l) => l
  | m_a_of (B_at l) => l
  | DETAILS_at l => l
  end.

(** [n] successive calls of [foo] through the interface of the composed
    object whose base is at [i]. *)
Fixpoint foo_times {E : Type} (n : nat) (i : interface_ptr)
    (w : world globals details.A) : outcome E unit (world globals details.A) :=
  match n with
  | O => Returns tt w
  | S k =>
      match interface.foo i w with
      | Returns _ w1 => foo_times k i w1
      | Throws e w1 => Throws e w1
      | Undefined => Undefined
      end
  end.

(** [n] copies of [s] in a row. *)
Fixpoint copies (n : nat) (s : string) : string :=
  match n with
  | O => ""
  | S k => s +:+ copies k s
  end.

(** ** Sequences of operations on the example *)

(** What a program does with the objects of the example: [p->foo()] on an
    implementation instance, [a.foo()] through the interface of a composed
    object, [b.bar()] on a [B<details::A>], and the static [A::func0()]. *)
Inductive operation :=
| op_foo (p : details_ptr)
| op_interface_foo (i : interface_ptr)
| op_bar (q : B_ptr)
| op_func0.

Definition run_op (o : operation) (w : world globals details.A)
  : outcome exception unit (world globals details.A) :=
  match o with
  | op_foo p => call details.foo p w
  | op_interface_foo i => interface.foo i w
  | op_bar q => bar details.foo q w
  | op_func0 => interface.func0 w
  end.

(** Sequencing: the next statement runs in the state the previous one
    returned in; an exception or undefined behaviour ends the sequence. *)
Definition and_then {E R S : Type} (o : outcome E R S)
    (k : S → outcome E R S) : outcome E R S :=
  match o with
  | Returns _ s => k s
  | Throws e s => Throws e s
  | Undefined => Undefined
  end.

Fixpoint run (os : list operation) (w : world globals details.A)
  : outcome exception unit (world globals details.A) :=
  match os with
  | [] => Returns tt w
  | o :: rest => and_then (run_op o w) (run rest)
  end.

(** The implementation instance an operation is invoked on, if any. *)
Definition receiver (o : operation) : option details_ptr :=
  match o with
  | op_foo p => Some p
  | op_interface_foo i => Some (details i)
  | op_bar q => Some (addr_m_a q)
  | op_func0 => None
  end.

(** The operations that end in [g_count += 1], and those that print. *)
Fixpoint increments (os : list operation) : nat :=
  match os with
  | [] => O
  | op_func0 :: rest => increments rest
  | _ :: rest => S (increments rest)
  end.

Fixpoint prints (os : list operation) : nat :=
  match os with
  | [] => O
  | op_func0 :: rest => S (prints rest)
  | _ :: rest => prints rest
  end.

(** All the receivers of a sequence are live. *)
Definition receivers_live (os : list operation)
    (w : world globals details.A) : Prop :=
  ∀ o p, o ∈ os → receiver o = Some p → live p w.

(** ** Example states *)

(** A composed object at address 1, a [B<details::A>] at address 2 and a
    [details::A] on its own at address 3, with the counter at [n]. *)
Definition three_objects (n : Z) : world globals details.A :=
  mk_world (mk_globals n initial_cout)
    (<[1%positive := O_type (mk_type details.mk_A)]>
       (<[2%positive := O_B (mk_B details.mk_A)]>
          (<[3%positive := O_DETAILS details.mk_A]> ∅))).

(** No objects, the counter at 0 and [std::cout] in the state [os]. *)
Definition only_cout (os : ostream) : world globals details.A :=
  mk_world (mk_globals 0 os) ∅.

(** [std::cout] after [std::cout << std::setw(25)], and [std::cout] on a
    standard output that takes nothing, both otherwise as they start. *)
Definition cout_setw_25 : ostream :=
  mk_ostream goodbit goodbit 25 " "%char false false "" "" true a_library.

Definition cout_closed : ostream :=
  mk_ostream goodbit goodbit 0 " "%char false false "" "" false a_library.

(** [A a1; A a2;] in the initial state. *)
Definition two_binders : list type_ptr * world globals details.A :=
  new_types details.mk_A 2 (mk_world initial_globals ∅).

(** * Properties *)

Section store_facts.
Context {G DETAILS : Type}.
Implicit Types (p q : details_ptr) (x : DETAILS)
  (h : gmap addr (object DETAILS)) (w : world G DETAILS).

Lemma load_store_eq p x h : load p (store p x h) = Some x.
Proof.
  destruct p as [[l]|[l]|l]; simpl; by rewrite lookup_insert_eq.
Qed.

Lemma store_lookup_ne p x h (k : addr) :
  root p ≠ k → store p x h !! k = h !! k.
Proof.
  destruct p as [[l]|[l]|l]; simpl; intros Hk; by rewrite lookup_insert_ne.
Qed.

Lemma load_store_ne p q x h :
  is_Some (load p h) → p ≠ q → load q (store p x h) = load q h.
Proof.
  intros [y Hy] Hne.
  destruct (decide (root p = root q)) as [Heq|Hr].
  - destruct p as [[l]|[l]|l], q as [[k]|[k]|k]; simpl in *; subst;
      try congruence; rewrite lookup_insert_eq;
      destruct (h !! k) as [[]|]; simpl in *; congruence.
  - destruct q as [[k]|[k]|k]; simpl in *;
      by rewrite store_lookup_ne.
Qed.

Lemma store_load_id p x h : load p h = Some x → store p x h = h.
Proof.
  destruct p as [[l]|[l]|l]; simpl; intros Hl; apply insert_id;
    destruct (h !! l) as [[[]|[]|]|]; simpl in *; congruence.
Qed.

Lemma live_store p q x h :
  is_Some (load p h) → is_Some (load q (store p x h)) ↔ is_Some (load q h).
Proof.
  intros Hp. destruct (decide (p = q)) as [->|Hne].
  - rewrite load_store_eq. split; eauto.
  - by rewrite load_store_ne.
Qed.

(** What a call through a pointer to a live instance does, in terms of the
    body of the member function. *)
Lemma call_live {E R} (m : method G DETAILS E R) p w x :
  load p (heap w) = Some x →
  call m p w = write_back (m x (glob w)) (λ x', store p x' (heap w)).
Proof. intros Hl. unfold call. by rewrite Hl. Qed.

Lemma call_dangling {E R} (m : method G DETAILS E R) p w :
  load p (heap w) = None → call m p w = Undefined.
Proof. intros Hl. unfold call. by rewrite Hl. Qed.

(** Calls on two instances in equal states, with equal namespace-scope
    state, have the same effect. *)
Lemma call_same_effect {E R} (m : method G DETAILS E R) p1 p2 w1 w2 x :
  glob w1 = glob w2 →
  load p1 (heap w1) = Some x → load p2 (heap w2) = Some x →
  same_effect p1 p2 (call m p1 w1) (call m p2 w2).
Proof.
  intros Hg H1 H2.
  rewrite (call_live m p1 w1 x H1), (call_live m p2 w2 x H2), Hg.
  destruct (m x (glob w2)) as [r [x' g']|e [x' g']|]; simpl;
    rewrite ?load_store_eq; eauto.
Qed.

(** A call changes no complete object but the one its receiver is in, and
    does not change which instances are live. *)
Lemma call_frame {E R} (m : method G DETAILS E R) p w w' :
  reached (call m p w) = Some w' →
  (∀ k : addr, root p ≠ k → heap w' !! k = heap w !! k) ∧
  (∀ q, p ≠ q → load q (heap w') = load q (heap w)) ∧
  (∀ q, is_Some (load q (heap w')) ↔ is_Some (load q (heap w))).
Proof.
  unfold call. destruct (load p (heap w)) as [x|] eqn:Hl; [|done].
  assert (Hs : is_Some (load p (heap w))) by eauto.
  destruct (m x (glob w)) as [r [x' g']|e [x' g']|]; simpl; [| |done];
    intros [= <-]; simpl;
    (split; [intros; by apply store_lookup_ne|]);
    (split; [intros; by apply load_store_ne|]);
    intros; by apply live_store.
Qed.

End store_facts.

Section binding_facts.
Context {G DETAILS : Type}.
Implicit Types (p q : details_ptr) (x : DETAILS) (w : world G DETAILS).

Lemma write_back_throws {E R} (o : outcome E R (DETAILS * G))
    (put : DETAILS → gmap addr (object DETAILS)) (e : E) :
  (∃ w', write_back o put = Throws e w') ↔ (∃ s, o = Throws e s).
Proof.
  destruct o as [r [x' g']|e' [x' g']|]; simpl; split;
    intros [? H]; inversion H; subst; eauto.
Qed.

Lemma write_back_returns {E R} (o : outcome E R (DETAILS * G))
    (put : DETAILS → gmap addr (object DETAILS)) (r : R) :
  (∃ w', write_back o put = Returns r w') ↔ (∃ s, o = Returns r s).
Proof.
  destruct o as [r' [x' g']|e' [x' g']|]; simpl; split;
    intros [? H]; inversion H; subst; eauto.
Qed.

Lemma write_back_undefined {E R} (o : outcome E R (DETAILS * G))
    (put : DETAILS → gmap addr (object DETAILS)) :
  write_back o put = Undefined ↔ o = Undefined.
Proof. destruct o as [r [x' g']|e' [x' g']|]; simpl; split; done. Qed.

(** C1: an operation invoked through the interface of a composed object
    has the same observable effect (outcome, result or exception,
    namespace-scope state, state of the implementation instance) as the
    implementation's method invoked directly on an implementation instance
    on its own that is in the same state; a static operation invoked
    through the interface is the implementation's static operation; and
    [bar] on the [B] at [l] does what the body of [foo] does to the member
    [m_a] of that object, and nothing else. *)
Theorem binder_call_same_as_direct_call {E R : Type}
    (m : method G DETAILS E R) (foo : method G DETAILS E unit) w :
  (∀ (i : interface_ptr) w' (l' : addr) x,
      glob w = glob w' →
      load (details i) (heap w) = Some x →
      load (DETAILS_at l') (heap w') = Some x →
      same_effect (details i) (DETAILS_at l')
        (interface_call m i w) (call m (DETAILS_at l') w'))
  ∧ (∀ s : static_method G E R,
      interface_call_static s w = call_static s w)
  ∧ (∀ (l : addr) (b : B DETAILS),
      heap w !! l = Some (O_B b) →
      bar foo (B_at l) w
      = write_back (foo (m_a b) (glob w))
          (λ x', <[l := O_B (mk_B x')]> (heap w))).
Proof.
  split; [|split; [done|]].
  - intros i w' l' x Hg Hi Hl. unfold interface_call.
    by apply call_same_effect with x.
  - intros l b Hb. unfold bar, addr_m_a.
    rewrite (call_live foo (m_a_of (B_at l)) w (m_a b)); [done|].
    simpl. by rewrite Hb.
Qed.

(** C7: through the interface of a live composed object an operation
    throws exactly the exceptions its body throws on the embedded
    instance, returns exactly when the body returns and is undefined
    exactly when the body is; a direct call on an implementation instance
    in the same state throws the same exceptions; the same for [bar] and
    the body of [foo], and for a static operation and its body. *)
Theorem errors_propagate_unchanged {E R : Type}
    (m : method G DETAILS E R) (foo : method G DETAILS E unit) w :
  (∀ (i : interface_ptr) x,
      load (details i) (heap w) = Some x →
      (∀ e, (∃ w1, interface_call m i w = Throws e w1)
            ↔ (∃ s, m x (glob w) = Throws e s))
      ∧ (∀ r, (∃ w1, interface_call m i w = Returns r w1)
              ↔ (∃ s, m x (glob w) = Returns r s))
      ∧ (interface_call m i w = Undefined ↔ m x (glob w) = Undefined)
      ∧ (∀ w' (l' : addr) e,
            glob w = glob w' →
            load (DETAILS_at l') (heap w') = Some x →
            (∃ w1, interface_call m i w = Throws e w1)
            ↔ (∃ w2, call m (DETAILS_at l') w' = Throws e w2)))
  ∧ (∀ (q : B_ptr) x,
      load (addr_m_a q) (heap w) = Some x →
      (∀ e, (∃ w1, bar foo q w = Throws e w1)
            ↔ (∃ s, foo x (glob w) = Throws e s))
      ∧ (∀ r, (∃ w1, bar foo q w = Returns r w1)
              ↔ (∃ s, foo x (glob w) = Returns r s))
      ∧ (bar foo q w = Undefined ↔ foo x (glob w) = Undefined))
  ∧ (∀ (s : static_method G E R) e,
      (∃ w1, interface_call_static (DETAILS:=DETAILS) s w = Throws e w1)
      ↔ (∃ g, s (glob w) = Throws e g)).
Proof.
  split; [|split].
  - intros i x Hi. unfold interface_call.
    rewrite (call_live m (details i) w x Hi).
    split; [intros e; apply write_back_throws|].
    split; [intros r; apply write_back_returns|].
    split; [apply write_back_undefined|].
    intros w' l' e Hg Hl.
    rewrite (call_live m (DETAILS_at l') w' x Hl), <- Hg.
    by rewrite !write_back_throws.
  - intros q x Hq. unfold bar.
    rewrite (call_live foo (addr_m_a q) w x Hq).
    split; [intros e; apply write_back_throws|].
    split; [intros r; apply write_back_returns|].
    apply write_back_undefined.
  - intros s e. unfold interface_call_static, call_static.
    destruct (s (glob w)) as [r g|e' g|]; simpl; split;
      intros [? H]; inversion H; subst; eauto.
Qed.

End binding_facts.

Section binder_facts.
Context {G DETAILS : Type}.
Implicit Types (p q : details_ptr) (x : DETAILS) (w : world G DETAILS).

Lemma details_to_base (t : type_ptr) : details (to_base t) = d_of t.
Proof. reflexivity. Qed.

#[local] Instance details_inj : Inj (=) (=) details.
Proof. intros [i] [j]; unfold details, addr_d; simpl; congruence. Qed.

#[local] Instance to_base_inj : Inj (=) (=) to_base.
Proof. intros i j; unfold to_base; congruence. Qed.

Lemma new_type_fresh (ctor : DETAILS) w (l : addr) w' :
  new_type ctor w = (type_at l, w') →
  heap w !! l = None ∧
  heap w' = <[l := O_type (mk_type ctor)]> (heap w) ∧ glob w' = glob w.
Proof.
  unfold new_type. intros [= <- <-]. simpl. split; [|done].
  apply not_elem_of_dom, is_fresh.
Qed.

Lemma new_types_spec (ctor : DETAILS) (n : nat) : ∀ w,
  length (new_types ctor n w).1 = n
  ∧ NoDup (new_types ctor n w).1
  ∧ (∀ l : addr, type_at l ∈ (new_types ctor n w).1 →
       heap w !! l = None
       ∧ heap (new_types ctor n w).2 !! l = Some (O_type (mk_type ctor)))
  ∧ (∀ k : addr, is_Some (heap w !! k) →
       heap (new_types ctor n w).2 !! k = heap w !! k)
  ∧ glob (new_types ctor n w).2 = glob w.
Proof.
  induction n as [|n IH]; intros w; cbn [new_types].
  - simpl. split; [done|]. split; [apply NoDup_nil_2|].
    split; [|done]. intros k Hk. by apply elem_of_nil in Hk.
  - destruct (new_type ctor w) as [[l] w1] eqn:H1.
    destruct (new_type_fresh _ _ _ _ H1) as (Hl & Hh & Hg).
    specialize (IH w1).
    destruct (new_types ctor n w1) as [ps w2]; cbn [fst snd length] in *.
    destruct IH as (Hlen & Hnd & Hnew & Hold & Hg2).
    assert (Hl1 : heap w1 !! l = Some (O_type (mk_type ctor)))
      by (rewrite Hh; apply lookup_insert_eq).
    split; [by rewrite Hlen|].
    split.
    { apply NoDup_cons. split; [|done].
      intros Hin. apply Hnew in Hin as [Hn _]. congruence. }
    split.
    { intros k Hk. apply elem_of_cons in Hk as [[= ->]|Hk].
      - split; [done|]. rewrite Hold; eauto.
      - destruct (Hnew k Hk) as [Hn Hs]. split; [|done].
        rewrite Hh in Hn.
        destruct (decide (l = k)) as [->|Hne];
          [by rewrite lookup_insert_eq in Hn
          |by rewrite lookup_insert_ne in Hn]. }
    split; [|congruence].
    intros k Hk.
    assert (l ≠ k) by (intros ->; rewrite Hl in Hk; by destruct Hk).
    rewrite Hold; rewrite Hh, lookup_insert_ne; done.
Qed.

Lemma load_d_of (h : gmap addr (object DETAILS)) (l : addr) :
  load (d_of (type_at l)) h
  = match h !! l with Some (O_type t) => Some (d t) | _ => None end.
Proof. reflexivity. Qed.

(** C3, amended: for every [N], constructing [N] composed objects gives
    [N] distinct objects whose implementation instances are pairwise
    distinct, live and freshly constructed, and disturbs no instance that
    was live before; and in any state an operation invoked through the
    interface of one composed object leaves the implementation instance of
    every other composed object, and every other complete object, as it
    was. The namespace-scope state, which is not part of any instance, is
    not covered. *)
Theorem binders_are_independent (ctor : DETAILS) (N : nat) w :
  length (new_types ctor N w).1 = N
  ∧ NoDup (new_types ctor N w).1
  ∧ NoDup ((λ t, details (to_base t)) <$> (new_types ctor N w).1)
  ∧ (∀ t : type_ptr, t ∈ (new_types ctor N w).1 →
       load (details (to_base t)) (heap w) = None
       ∧ load (details (to_base t)) (heap (new_types ctor N w).2)
         = Some ctor)
  ∧ (∀ q, is_Some (load q (heap w)) →
       load q (heap (new_types ctor N w).2) = load q (heap w))
  ∧ (∀ (E R : Type) (m : method G DETAILS E R) (i j : interface_ptr) w0 w1,
       i ≠ j →
       reached (interface_call m i w0) = Some w1 →
       load (details j) (heap w1) = load (details j) (heap w0)
       ∧ (∀ k : addr,
            root (details i) ≠ k → heap w1 !! k = heap w0 !! k)).
Proof.
  destruct (new_types_spec ctor N w) as (Hlen & Hnd & Hnew & Hold & Hg).
  split; [done|]. split; [done|].
  split.
  { assert (Inj (=) (=) (λ t : type_ptr, details (to_base t))).
    { intros a b Hab. by apply (inj to_base), (inj details). }
    by apply (NoDup_fmap_2 (λ t, details (to_base t))). }
  split.
  { intros [l] Hin. destruct (Hnew l Hin) as [Hn Hs].
    rewrite details_to_base, !load_d_of. by rewrite Hn, Hs. }
  split.
  { intros q [x Hq].
    assert (Hr : is_Some (heap w !! root q)).
    { destruct q as [[l]|[l]|l]; simpl in *;
        destruct (heap w !! l); eauto; done. }
    specialize (Hold _ Hr).
    destruct q as [[l]|[l]|l]; simpl in *; by rewrite Hold. }
  intros E R m i j w0 w1 Hij Hr. unfold interface_call in Hr.
  destruct (call_frame m (details i) w0 w1 Hr) as (Hk & Hq & _).
  split; [|done]. apply Hq. intros Heq. by apply (inj details) in Heq.
Qed.

(** C5: both overloads of [details], given the pointer to the interface
    base of the composed object at [t], return the pointer to the member
    [d] of that same object: the two agree, the object that owns the
    result is [t], different composed objects give different pointers, and
    what is read through the result is the [d] of the object at [t]. The
    members of [type], the accessors among them, can be named only from
    [type<INTERFACE, DETAILS>] itself and from its friend
    [INTERFACE<type<INTERFACE, DETAILS>>]. *)
Theorem details_returns_own_member (t : type_ptr) :
  details (to_base t) = addr_d t
  ∧ details_const (Const (to_base t)) = Const (addr_d t)
  ∧ (∀ i : interface_ptr, pointee (details_const (Const i)) = details i)
  ∧ owner (details (to_base t)) = Some t
  ∧ (∀ i j : interface_ptr, details i = details j → i = j)
  ∧ (∀ (h : gmap addr (object DETAILS)) (l : addr) (v : type DETAILS),
       t = type_at l → h !! l = Some (O_type v) →
       load (details (to_base t)) h = Some (d v)
       ∧ load_const (details_const (Const (to_base t))) h = Some (d v))
  ∧ (∀ (from : class_name) (I D : string) (m : member),
       accessible from I D m = true
       ↔ from = class_type I D ∨ from = class_INTERFACE I (class_type I D)).
Proof.
  split; [done|]. split; [done|]. split; [done|]. split; [done|].
  split; [intros i j H; by apply (inj details)|].
  split.
  - intros h l v -> Hl. unfold load_const. simpl. by rewrite Hl.
  - intros from I D m. unfold accessible, friends. destruct m; simpl;
      rewrite orb_true_iff, !bool_decide_eq_true, list_elem_of_singleton;
      done.
Qed.

End binder_facts.

Section lifetime_facts.
Context {G DETAILS : Type}.
Implicit Types (p q : details_ptr) (x : DETAILS) (w : world G DETAILS).

Lemma delete_type_spec (l : addr) w w' :
  delete_type (type_at l) w = Some w' →
  (∃ v, heap w !! l = Some (O_type v))
  ∧ heap w' = delete l (heap w) ∧ glob w' = glob w.
Proof.
  unfold delete_type.
  destruct (heap w !! l) as [[v| |]|] eqn:Hl; try done.
  intros [= <-]. eauto.
Qed.

(** C6: a composed object has the member [d] as its only state; the
    implementation instance embedded in the composed object at [t] is the
    one [details] returns and is owned by [t] alone; it is live exactly
    while the composed object is: it comes to life, default-constructed,
    when the object is constructed and ends with it, the other instances
    being left as they were; and no operation invoked through the
    interface, static or not, changes which instances are live. *)
Theorem binder_owns_one_instance (ctor : DETAILS) w :
  (∀ v : type DETAILS, mk_type (d v) = v)
  ∧ (∀ (t : type_ptr) q, owner q = Some t ↔ q = details (to_base t))
  ∧ (∀ l : addr,
       live (details (to_base (type_at l))) w
       ↔ ∃ v, heap w !! l = Some (O_type v))
  ∧ (¬ live (details (to_base (new_type ctor w).1)) w
     ∧ load (details (to_base (new_type ctor w).1))
         (heap (new_type ctor w).2) = Some ctor
     ∧ ∀ q, live q w →
            load q (heap (new_type ctor w).2) = load q (heap w))
  ∧ (∀ (t : type_ptr) w',
       delete_type t w = Some w' →
       live (details (to_base t)) w
       ∧ ¬ live (details (to_base t)) w'
       ∧ ∀ q, q ≠ details (to_base t) →
              load q (heap w') = load q (heap w))
  ∧ (∀ (E R : Type) (m : method G DETAILS E R) (i : interface_ptr) w',
       reached (interface_call m i w) = Some w' →
       ∀ q, live q w' ↔ live q w)
  ∧ (∀ (E R : Type) (m : static_method G E R) w',
       reached (interface_call_static (DETAILS:=DETAILS) m w) = Some w' →
       heap w' = heap w).
Proof.
  split; [by intros []|].
  split.
  { intros t q. rewrite details_to_base. destruct q; simpl; naive_solver. }
  split.
  { intros l. unfold live. rewrite details_to_base, load_d_of.
    destruct (heap w !! l) as [[v| |]|]; split;
      try (intros [? ?]; done); eauto. }
  split.
  { destruct (new_type ctor w) as [[l] w1] eqn:Hn.
    destruct (new_type_fresh _ _ _ _ Hn) as (Hl & Hh & _). simpl.
    unfold live. rewrite details_to_base, !load_d_of, Hl, Hh.
    rewrite lookup_insert_eq. simpl.
    split; [by intros [? ?]|]. split; [done|].
    intros q [x Hq].
    assert (Hne : l ≠ root q).
    { intros ->. destruct q as [[k]|[k]|k]; simpl in *;
        by rewrite Hl in Hq. }
    destruct q as [[k]|[k]|k]; simpl in *; by rewrite lookup_insert_ne. }
  split.
  { intros [l] w' Hd.
    destruct (delete_type_spec l w w' Hd) as ([v Hv] & Hh & _).
    unfold live. rewrite details_to_base, !load_d_of, Hv, Hh.
    rewrite lookup_delete_eq.
    split; [eauto|]. split; [by intros [? ?]|].
    intros q Hq.
    destruct (decide (l = root q)) as [->|Hne].
    - destruct q as [[k]|[k]|k]; simpl in *;
        rewrite ?lookup_delete_eq, ?Hv; congruence.
    - destruct q as [[k]|[k]|k]; simpl in *; by rewrite lookup_delete_ne. }
  split.
  { intros E R m i w' Hr q. unfold live, interface_call in *.
    by destruct (call_frame m (details i) w w' Hr) as (_ & _ & Hlive). }
  intros E R m w'. unfold interface_call_static, call_static.
  destruct (m (glob w)); simpl; [| |done]; by intros [= <-].
Qed.

End lifetime_facts.

Section example_facts.
Context {E : Type}.
Implicit Types (p q : details_ptr) (w : world globals details.A).

(** [foo] on any live instance: defined while the counter is below
    [INT_MAX], and then only the counter changes. *)
Lemma foo_call p w :
  live p w →
  call (E:=E) details.foo p w
  = if decide (g_count (glob w) < INT_MAX)
    then Returns tt (mk_world
                       (mk_globals (g_count (glob w) + 1) (cout (glob w)))
                       (heap w))
    else Undefined.
Proof.
  intros [x Hx]. rewrite (call_live _ p w x Hx). unfold details.foo.
  destruct (decide (g_count (glob w) < INT_MAX)); [|done].
  simpl. by rewrite (store_load_id p x (heap w) Hx).
Qed.

Lemma foo_all_spec (ps : list details_ptr) : ∀ w,
  (∀ p, p ∈ ps → live p w) →
  g_count (glob w) + Z.of_nat (length ps) ≤ INT_MAX →
  foo_all (E:=E) ps w
  = Returns tt (mk_world
                  (mk_globals (g_count (glob w) + Z.of_nat (length ps))
                     (cout (glob w)))
                  (heap w)).
Proof.
  induction ps as [|p ps IH]; intros w Hlive Hmax.
  - simpl. destruct w as [[n c] h]; simpl. do 3 f_equal. lia.
  - cbn [foo_all]. rewrite foo_call by (apply Hlive; left).
    rewrite length_cons, Nat2Z.inj_succ in *.
    destruct (decide (g_count (glob w) < INT_MAX)); [|lia].
    rewrite IH; simpl.
    + do 3 f_equal. lia.
    + intros q Hq. apply (Hlive q). by right.
    + lia.
Qed.

(** C4, amended: a call of [foo] on any live instance, made while the
    counter is below [INT_MAX], returns and increments the one counter
    [details::g_count] by exactly 1, changing nothing else; and [k] calls
    distributed in any way over live instances, from a state where the
    counter plus [k] does not exceed [INT_MAX], increase it by exactly
    [k]. *)
Theorem foo_increments_shared_counter (ps : list details_ptr) w :
  (∀ p, p ∈ ps → live p w) →
  g_count (glob w) + Z.of_nat (length ps) ≤ INT_MAX →
  (∀ p, p ∈ ps →
     call (E:=E) details.foo p w
     = Returns tt (mk_world
                     (mk_globals (g_count (glob w) + 1) (cout (glob w)))
                     (heap w)))
  ∧ ∃ w', foo_all (E:=E) ps w = Returns tt w'
          ∧ g_count (glob w') = g_count (glob w) + Z.of_nat (length ps)
          ∧ cout (glob w') = cout (glob w)
          ∧ heap w' = heap w.
Proof.
  intros Hlive Hmax. split.
  - intros p Hp. rewrite foo_call by auto.
    destruct (decide (g_count (glob w) < INT_MAX)); [done|].
    destruct ps; [by apply elem_of_nil in Hp|].
    rewrite length_cons, Nat2Z.inj_succ in Hmax. lia.
  - eexists. split; [by apply foo_all_spec|]. done.
Qed.

(** C10: in any state, [foo] invoked on one live instance of [details::A]
    and [foo] invoked on another have the same outcome and, when they
    return, leave the same state: the same counter, the same output
    stream and the same store. *)
Theorem foo_is_instance_independent p q w :
  live p w → live q w →
  call (E:=E) details.foo p w = call (E:=E) details.foo q w.
Proof. intros Hp Hq. by rewrite !foo_call. Qed.

Lemma foo_times_spec (n : nat) (i : interface_ptr) : ∀ w,
  live (details i) w →
  g_count (glob w) + Z.of_nat n ≤ INT_MAX →
  foo_times (E:=E) n i w
  = Returns tt (mk_world
                  (mk_globals (g_count (glob w) + Z.of_nat n) (cout (glob w)))
                  (heap w)).
Proof.
  induction n as [|n IH]; intros w Hlive Hmax.
  - simpl. destruct w as [[c o] h]; simpl. do 3 f_equal. lia.
  - cbn [foo_times]. unfold interface.foo, interface_call.
    rewrite foo_call by done. rewrite Nat2Z.inj_succ in Hmax.
    destruct (decide (g_count (glob w) < INT_MAX)); [|lia].
    rewrite IH; simpl; [|done|lia]. do 3 f_equal. lia.
Qed.

(** C2, amended: from a state where the counter is 0, three calls of
    [foo] through the interface of one live composed object return and
    leave the counter at 3. The counter is [details::g_count], the same
    for every instance, so it reads 3 for a second composed object as
    well; the second object itself, like the whole store, is unchanged. *)
Theorem three_calls_leave_shared_counter_at_3 (i j : interface_ptr) w :
  live (details i) w → live (details j) w →
  g_count (glob w) = 0 →
  ∃ w3, foo_times (E:=E) 3 i w = Returns tt w3
        ∧ counter (details i) w3 = 3
        ∧ counter (details j) w3 = 3
        ∧ load (details j) (heap w3) = load (details j) (heap w)
        ∧ heap w3 = heap w.
Proof.
  intros Hi Hj H0. eexists. split.
  - apply foo_times_spec; [done|]. rewrite H0. unfold INT_MAX. lia.
  - unfold counter. simpl. rewrite H0. done.
Qed.

Lemma string_app_assoc (s t u : string) : (s +:+ t) +:+ u = s +:+ t +:+ u.
Proof.
  induction s as [|a s IH]; [done|].
  change (String a (s +:+ t +:+ u)) with (String a s +:+ t +:+ u) in *.
  change (String a ((s +:+ t) +:+ u) = String a (s +:+ t +:+ u)).
  by rewrite IH.
Qed.

Lemma string_app_nil_r (s : string) : s +:+ "" = s.
Proof.
  induction s as [|a s IH]; [done|].
  change (String a (s +:+ "") = String a s). by rewrite IH.
Qed.

End example_facts.

Section stream_facts.
Implicit Types (os : ostream) (g : globals) (w : world globals details.A).

Lemma string_app_nil_l (s : string) : "" +:+ s = s.
Proof. reflexivity. Qed.

Lemma iostate_meets_goodbit (st : iostate) : iostate_meets st goodbit = false.
Proof. destruct st as [[] [] []]; reflexivity. Qed.

Lemma setstate_quiet (st : iostate) os :
  quiet os →
  setstate st os = Returns tt (with_rdstate (iostate_or (rdstate os) st) os).
Proof.
  unfold quiet, setstate. intros Hq. simpl.
  by rewrite Hq, iostate_meets_goodbit.
Qed.

Lemma sentry_end_exceptions os : exceptions (sentry_end os) = exceptions os.
Proof.
  unfold sentry_end, pubsync.
  destruct (unitbuf os && good os); [|done].
  destruct (device_accepts os); [done|].
  by destruct (decide (buffer os = "")).
Qed.

Lemma sentry_quiet os :
  quiet os → ∃ b os', sentry os = Returns b os' ∧ quiet os'.
Proof.
  intros Hq. unfold sentry. destruct (good os); [eauto|].
  destruct (sentry_sets_failbit (lib os) (rdstate os)); [|eauto].
  rewrite setstate_quiet by done. eauto.
Qed.

Lemma sync_or_badbit_quiet os :
  quiet os → ∃ os', sync_or_badbit os = Returns tt os' ∧ quiet os'.
Proof.
  intros Hq. unfold sync_or_badbit, pubsync.
  destruct (device_accepts os); [eauto|].
  destruct (decide (buffer os = "")); [eauto|].
  rewrite setstate_quiet by done. eauto.
Qed.

Lemma put_quiet (s : string) os :
  quiet os → ∃ os', put s os = Returns tt os' ∧ quiet os'.
Proof.
  intros Hq. unfold put.
  destruct (sentry_quiet os Hq) as (b & os1 & -> & Hq1).
  destruct b; [|eauto]. eexists. split; [done|].
  unfold quiet. by rewrite sentry_end_exceptions.
Qed.

Lemma put_character_quiet (c : ascii) os :
  quiet os → ∃ os', put_character c os = Returns tt os' ∧ quiet os'.
Proof.
  intros Hq. unfold put_character.
  destruct (sentry_quiet os Hq) as (b & os1 & -> & Hq1).
  destruct b; [|eauto]. eexists. split; [done|].
  unfold quiet. by rewrite sentry_end_exceptions.
Qed.

Lemma flush_quiet os :
  quiet os → ∃ os', flush os = Returns tt os' ∧ quiet os'.
Proof.
  intros Hq. unfold flush.
  destruct (flush_constructs_sentry (lib os));
    [|by apply sync_or_badbit_quiet].
  destruct (sentry_quiet os Hq) as (b & os1 & -> & Hq1).
  destruct b; [|eauto].
  destruct (sync_or_badbit_quiet os1 Hq1) as (os2 & -> & Hq2).
  eexists. split; [done|]. unfold quiet. by rewrite sentry_end_exceptions.
Qed.

(** With no exception enabled [func0] returns in every state of the
    stream, and what it leaves of the stream does not depend on the
    counter. *)
Lemma func0_quiet os :
  quiet os →
  ∃ os', quiet os'
         ∧ ∀ n : Z,
             details.func0 (mk_globals n os) = Returns tt (mk_globals n os').
Proof.
  intros Hq. unfold details.func0. simpl.
  destruct (put_quiet "calling static f0()" os Hq) as (os1 & -> & Hq1).
  unfold endl.
  destruct (put_character_quiet "010"%char os1 Hq1) as (os2 & -> & Hq2).
  destruct (flush_quiet os2 Hq2) as (os3 & -> & Hq3).
  eauto.
Qed.

(** On a stream that is ready [func0] returns, the line and whatever the
    stream buffer held before it have reached the standard output, and the
    stream is ready again. *)
Lemma func0_ready g :
  ready (cout g) →
  ∃ os', details.func0 g = Returns tt (mk_globals (g_count g) os')
         ∧ sink os'
           = sink (cout g) +:+ buffer (cout g)
             +:+ "calling static f0()" +:+ String "010"%char ""
         ∧ buffer os' = ""
         ∧ ready os'
         ∧ rdstate os' = rdstate (cout g)
         ∧ exceptions os' = exceptions (cout g).
Proof.
  destruct g as [n [[b1 b2 b3] ex wd f a u b k dev l]].
  unfold ready, good. simpl. intros (Hg & Hw & ->).
  destruct b1, b2, b3; try discriminate Hg.
  assert (Hpad : Z.to_nat (wd - Z.of_nat 19) = 0%nat) by lia.
  destruct a, u, (flush_constructs_sentry l) eqn:Hfl;
    unfold details.func0, put, sentry, good, pad, endl, put_character, flush,
      sync_or_badbit, sentry_end, pubsync, sentry, good; simpl;
    rewrite ?Hfl, Hpad; simpl;
    eexists; (split; [reflexivity|]); simpl;
    rewrite ?string_app_nil_r, ?string_app_nil_l, ?string_app_assoc;
    repeat split; try done; lia.
Qed.

Lemma output_after_line os os' (line : string) :
  sink os' = sink os +:+ buffer os +:+ line → buffer os' = "" →
  output os' = output os +:+ line.
Proof.
  unfold output. intros -> ->.
  by rewrite string_app_nil_r, !string_app_assoc.
Qed.

Lemma func0_times_ready (n : nat) : ∀ w,
  ready (cout (glob w)) →
  ∃ wn, func0_times n w = Returns tt wn
        ∧ output (cout (glob wn))
          = output (cout (glob w))
            +:+ copies n ("calling static f0()" +:+ String "010"%char "")
        ∧ (n ≠ O → buffer (cout (glob wn)) = "")
        ∧ ready (cout (glob wn))
        ∧ g_count (glob wn) = g_count (glob w)
        ∧ heap wn = heap w.
Proof.
  induction n as [|n IH]; intros w Hr.
  - exists w. simpl. rewrite string_app_nil_r. done.
  - cbn [func0_times copies].
    unfold interface.func0, interface_call_static, call_static.
    destruct (func0_ready (glob w) Hr) as (os' & -> & Hs & Hb & Hr' & _).
    destruct (IH (mk_world (mk_globals (g_count (glob w)) os') (heap w)) Hr')
      as (wn & Hwn & Ho & Hbn & Hrn & Hg & Hh).
    exists wn. simpl in *. split; [done|]. split.
    + rewrite Ho, (output_after_line (cout (glob w)) os' _ Hs Hb).
      by rewrite !string_app_assoc.
    + split; [|done]. intros _. destruct n as [|n]; [|by apply Hbn].
      simpl in Hwn. by inversion Hwn; subst.
Qed.

(** C8, amended: when [std::cout] is good, has no pending width above the
    length of the message and the standard output takes what is written,
    [func0] invoked through the interface returns; the characters
    [calling static f0()] and one newline character, unaltered, have
    reached the standard output after whatever the stream buffer still
    held, nothing stays in the buffer, the counter and the store are
    unchanged, and the stream is in such a state again, so that [n]
    invocations in a row write [n] copies of that line. *)
Theorem func0_writes_fixed_message w :
  ready (cout (glob w)) →
  (∃ w', interface.func0 w = Returns tt w'
         ∧ sink (cout (glob w'))
           = sink (cout (glob w)) +:+ buffer (cout (glob w))
             +:+ "calling static f0()" +:+ String "010"%char ""
         ∧ buffer (cout (glob w')) = ""
         ∧ ready (cout (glob w'))
         ∧ g_count (glob w') = g_count (glob w)
         ∧ heap w' = heap w)
  ∧ ∀ n : nat,
      ∃ wn, func0_times n w = Returns tt wn
            ∧ output (cout (glob wn))
              = output (cout (glob w))
                +:+ copies n ("calling static f0()" +:+ String "010"%char "")
            ∧ (n ≠ O → buffer (cout (glob wn)) = "")
            ∧ ready (cout (glob wn)).
Proof.
  intros Hr. split.
  - unfold interface.func0, interface_call_static, call_static.
    destruct (func0_ready (glob w) Hr) as (os' & -> & Hs & Hb & Hr' & _).
    eexists. split; [done|]. done.
  - intros n.
    destruct (func0_times_ready n w Hr) as (wn & ? & ? & ? & ? & _).
    eauto.
Qed.

End stream_facts.

(** * The properties at concrete states *)

Example foo_through_interface :
  interface.foo (E:=Empty_set) (base_of (type_at 1%positive)) (three_objects 5)
  = Returns tt (three_objects 6).
Proof. reflexivity. Qed.

Example bar_on_B :
  bar (E:=Empty_set) details.foo (B_at 2%positive) (three_objects 5)
  = Returns tt (three_objects 6).
Proof. reflexivity. Qed.

Example foo_on_dangling_pointer :
  call (E:=Empty_set) details.foo (DETAILS_at 4%positive) (three_objects 5)
  = Undefined.
Proof. reflexivity. Qed.

Example two_binders_addresses :
  two_binders.1 = [type_at 1%positive; type_at 2%positive].
Proof. reflexivity. Qed.

Lemma binder_call_same_as_direct_call_witness :
  same_effect (details (base_of (type_at 1%positive))) (DETAILS_at 3%positive)
    (interface_call (E:=Empty_set) details.foo (base_of (type_at 1%positive))
       (three_objects 5))
    (call details.foo (DETAILS_at 3%positive) (three_objects 5))
  ∧ bar (E:=Empty_set) details.foo (B_at 2%positive) (three_objects 5)
    = write_back (details.foo details.mk_A (glob (three_objects 5)))
        (λ x', <[2%positive := O_B (mk_B x')]> (heap (three_objects 5))).
Proof.
  destruct (binder_call_same_as_direct_call (E:=Empty_set)
              details.foo details.foo (three_objects 5)) as (H1 & _ & H2).
  split.
  - apply (H1 (base_of (type_at 1%positive)) (three_objects 5) 3%positive
             details.mk_A); reflexivity.
  - apply (H2 2%positive (mk_B details.mk_A)). reflexivity.
Defined.

Lemma errors_propagate_unchanged_witness :
  load (details (base_of (type_at 1%positive))) (heap (three_objects 5))
  = Some details.mk_A
  ∧ ((∃ w1, interface_call (R:=unit)
              (λ (x : details.A) (g : globals), Throws 7%nat (x, g))
              (base_of (type_at 1%positive)) (three_objects 5)
            = Throws 7%nat w1)
     ↔ (∃ s, Throws (R:=unit) 7%nat (details.mk_A, glob (three_objects 5))
             = Throws 7%nat s)).
Proof.
  split; [reflexivity|].
  destruct (errors_propagate_unchanged
              (λ (x : details.A) (g : globals), Throws (R:=unit) 7%nat (x, g))
              details.foo (three_objects 5)) as [H1 _].
  destruct (H1 (base_of (type_at 1%positive)) details.mk_A) as [H _];
    [reflexivity|].
  apply (H 7%nat).
Defined.

Lemma binders_are_independent_witness :
  base_of (type_at 1%positive) ≠ base_of (type_at 2%positive)
  ∧ load (details (base_of (type_at 2%positive))) (heap two_binders.2)
    = Some details.mk_A
  ∧ (∀ w1,
       reached (interface_call (E:=Empty_set) details.foo
                  (base_of (type_at 1%positive)) two_binders.2) = Some w1 →
       load (details (base_of (type_at 2%positive))) (heap w1)
       = load (details (base_of (type_at 2%positive))) (heap two_binders.2)).
Proof.
  split; [discriminate|]. split; [reflexivity|]. intros w1 Hr.
  destruct (binders_are_independent details.mk_A 2
              (mk_world initial_globals ∅)) as (_ & _ & _ & _ & _ & H).
  apply (H Empty_set unit details.foo (base_of (type_at 1%positive))
           (base_of (type_at 2%positive)) two_binders.2 w1);
    [discriminate|exact Hr].
Defined.

Lemma details_returns_own_member_witness :
  heap (three_objects 5) !! 1%positive = Some (O_type (mk_type details.mk_A))
  ∧ load (details (to_base (type_at 1%positive))) (heap (three_objects 5))
    = Some (d (mk_type details.mk_A))
  ∧ load_const (details_const (Const (to_base (type_at 1%positive))))
      (heap (three_objects 5))
    = Some (d (mk_type details.mk_A)).
Proof.
  split; [reflexivity|].
  destruct (details_returns_own_member (DETAILS:=details.A)
              (type_at 1%positive)) as (_ & _ & _ & _ & _ & H & _).
  apply (H (heap (three_objects 5)) 1%positive (mk_type details.mk_A));
    reflexivity.
Defined.

Lemma binder_owns_one_instance_witness :
  delete_type (type_at 1%positive) (three_objects 5)
  = Some (mk_world (glob (three_objects 5))
            (delete 1%positive (heap (three_objects 5))))
  ∧ live (details (to_base (type_at 1%positive))) (three_objects 5)
  ∧ ¬ live (details (to_base (type_at 1%positive)))
        (mk_world (glob (three_objects 5))
           (delete 1%positive (heap (three_objects 5)))).
Proof.
  split; [reflexivity|].
  destruct (binder_owns_one_instance details.mk_A (three_objects 5))
    as (_ & _ & _ & _ & H & _).
  destruct (H (type_at 1%positive)
              (mk_world (glob (three_objects 5))
                 (delete 1%positive (heap (three_objects 5)))))
    as (H1 & H2 & _); [reflexivity|].
  split; [exact H1|exact H2].
Defined.

Lemma foo_increments_shared_counter_witness :
  ∃ w', foo_all (E:=Empty_set)
          [d_of (type_at 1%positive); m_a_of (B_at 2%positive);
           DETAILS_at 3%positive; d_of (type_at 1%positive)]
          (three_objects 0) = Returns tt w'
        ∧ g_count (glob w') = 0 + Z.of_nat 4
        ∧ cout (glob w') = cout (glob (three_objects 0))
        ∧ heap w' = heap (three_objects 0).
Proof.
  apply (foo_increments_shared_counter
           [d_of (type_at 1%positive); m_a_of (B_at 2%positive);
            DETAILS_at 3%positive; d_of (type_at 1%positive)]
           (three_objects 0)).
  - intros p Hp.
    repeat (apply elem_of_cons in Hp as [->|Hp]);
      [by eexists..|by apply elem_of_nil in Hp].
  - vm_compute. discriminate.
Defined.

Lemma foo_is_instance_independent_witness :
  call (E:=Empty_set) details.foo (d_of (type_at 1%positive)) (three_objects 5)
  = call details.foo (DETAILS_at 3%positive) (three_objects 5).
Proof.
  apply foo_is_instance_independent; by eexists.
Defined.

Lemma three_calls_leave_shared_counter_at_3_witness :
  ∃ w3, foo_times (E:=Empty_set) 3 (base_of (type_at 1%positive))
          two_binders.2 = Returns tt w3
        ∧ counter (details (base_of (type_at 1%positive))) w3 = 3
        ∧ counter (details (base_of (type_at 2%positive))) w3 = 3
        ∧ load (details (base_of (type_at 2%positive))) (heap w3)
          = load (details (base_of (type_at 2%positive))) (heap two_binders.2)
        ∧ heap w3 = heap two_binders.2.
Proof.
  apply (three_calls_leave_shared_counter_at_3
           (base_of (type_at 1%positive)) (base_of (type_at 2%positive))
           two_binders.2).
  - by eexists.
  - by eexists.
  - reflexivity.
Defined.

(** C2 as stated fails: after [A a1; A a2;] in the initial state and three
    calls of [foo] on [a1], the counter that [a2] sees is not 0. *)
Lemma second_binder_counter_is_not_0 :
  match two_binders with
  | ([a1; a2], w0) =>
      counter (details (to_base a1)) w0 = 0
      ∧ counter (details (to_base a2)) w0 = 0
      ∧ match foo_times (E:=Empty_set) 3 (to_base a1) w0 with
        | Returns _ w3 =>
            ¬ (counter (details (to_base a1)) w3 = 3
               ∧ counter (details (to_base a2)) w3 = 0)
        | _ => False
        end
  | _ => False
  end.
Proof.
  vm_compute. split; [done|]. split; [done|]. intros [_ H]. discriminate.
Qed.

(** C3 as stated fails: after [A a1; A a2;] in the initial state, a call
    of [foo] on [a1] changes the state within reach of the operations of
    [a2]: the counter went from 0 to 1. *)
Lemma foo_on_one_binder_changes_shared_state :
  match two_binders with
  | ([a1; a2], w0) =>
      a1 ≠ a2
      ∧ match interface.foo (E:=Empty_set) (to_base a1) w0 with
        | Returns _ w1 =>
            reachable_state (to_base a2) w1 ≠ reachable_state (to_base a2) w0
            ∧ (reachable_state (to_base a2) w0).2 = initial_globals
            ∧ g_count (reachable_state (to_base a2) w1).2 = 1
        | _ => False
        end
  | _ => False
  end.
Proof. vm_compute. split; [discriminate|]. split; [discriminate|done]. Qed.

(** C4 as stated fails: with the counter at [INT_MAX], a call of [foo] on a
    live instance does not return with the counter incremented by 1. *)
Lemma foo_at_INT_MAX_does_not_increment :
  live (DETAILS_at 3%positive) (three_objects INT_MAX)
  ∧ ¬ ∃ w', call (E:=Empty_set) details.foo (DETAILS_at 3%positive)
              (three_objects INT_MAX) = Returns tt w'
            ∧ g_count (glob w') = g_count (glob (three_objects INT_MAX)) + 1.
Proof.
  split; [by eexists|]. intros (w' & Hc & _). vm_compute in Hc. discriminate.
Qed.

(** * Further properties of the code *)

Section sequences.
Implicit Types (p : details_ptr) (o : operation) (os : list operation)
  (w : world globals details.A).

(** An operation that increments: it needs its receiver live and the
    counter below [INT_MAX]; it changes the counter only. *)
Lemma run_op_increment o p w :
  receiver o = Some p →
  run_op o w
  = if decide (live p w ∧ g_count (glob w) < INT_MAX)
    then Returns tt (mk_world
                       (mk_globals (g_count (glob w) + 1) (cout (glob w)))
                       (heap w))
    else Undefined.
Proof.
  intros Hr.
  assert (Hrun : run_op o w = call details.foo p w).
  { destruct o; simpl in Hr; inversion Hr; subst; reflexivity. }
  rewrite Hrun. destruct (decide (live p w)) as [Hl|Hl].
  - rewrite foo_call by done.
    destruct (decide (g_count (glob w) < INT_MAX));
      [rewrite decide_True by done|rewrite decide_False by tauto]; done.
  - rewrite decide_False by tauto. apply call_dangling.
    unfold live in Hl. destruct (load p (heap w)); [|done].
    exfalso. apply Hl. eauto.
Qed.

Lemma receiver_None o : receiver o = None → o = op_func0.
Proof. by destruct o. Qed.

Lemma live_same_heap p w w' : heap w' = heap w → live p w' ↔ live p w.
Proof. unfold live. by intros ->. Qed.

(** [func0] through the interface with no exception enabled. *)
Lemma run_func0_quiet (c : ostream) :
  quiet c →
  ∃ c', quiet c'
        ∧ ∀ (n : Z) (h : gmap addr (object details.A)),
            run_op op_func0 (mk_world (mk_globals n c) h)
            = Returns tt (mk_world (mk_globals n c') h).
Proof.
  intros Hq. destruct (func0_quiet c Hq) as (c' & Hq' & Hf).
  exists c'. split; [done|]. intros n h. simpl.
  unfold interface.func0, interface_call_static, call_static. simpl.
  by rewrite Hf.
Qed.

Lemma run_op_quiet o w w' :
  quiet (cout (glob w)) → run_op o w = Returns tt w' →
  quiet (cout (glob w')).
Proof.
  intros Hq Hrun. destruct (receiver o) as [p|] eqn:Hr.
  - rewrite (run_op_increment o p w Hr) in Hrun.
    destruct (decide (live p w ∧ g_count (glob w) < INT_MAX)); [|done].
    by inversion Hrun; subst.
  - apply receiver_None in Hr as ->. destruct w as [[n c] h].
    destruct (run_func0_quiet c Hq) as (c' & Hq' & Hf).
    rewrite Hf in Hrun. by inversion Hrun; subst.
Qed.

Lemma swap_two o1 o2 w
    (k : world globals details.A
         → outcome exception unit (world globals details.A)) :
  quiet (cout (glob w)) →
  and_then (run_op o1 w) (λ w1, and_then (run_op o2 w1) k)
  = and_then (run_op o2 w) (λ w1, and_then (run_op o1 w1) k).
Proof.
  intros Hq.
  destruct (receiver o1) as [p1|] eqn:H1, (receiver o2) as [p2|] eqn:H2.
  - rewrite (run_op_increment o1 p1 w H1), (run_op_increment o2 p2 w H2).
    destruct (decide (live p1 w ∧ g_count (glob w) < INT_MAX))
      as [[L1 G1]|N1],
      (decide (live p2 w ∧ g_count (glob w) < INT_MAX)) as [[L2 G2]|N2];
      simpl; try done.
    + rewrite (run_op_increment o2 p2 _ H2), (run_op_increment o1 p1 _ H1).
      unfold live in *. simpl.
      destruct (decide (g_count (glob w) + 1 < INT_MAX)).
      * by rewrite !decide_True by done.
      * by rewrite !decide_False by tauto.
    + rewrite (run_op_increment o2 p2 _ H2). unfold live in *. simpl.
      rewrite decide_False; [done|].
      intros [L2 G2]. apply N2. split; [done|lia].
    + rewrite (run_op_increment o1 p1 _ H1). unfold live in *. simpl.
      rewrite decide_False; [done|].
      intros [L1 G1]. apply N1. split; [done|lia].
  - apply receiver_None in H2 as ->. destruct w as [[n c] h].
    destruct (run_func0_quiet c Hq) as (c' & _ & Hf).
    rewrite Hf, (run_op_increment o1 p1 _ H1). unfold live. simpl.
    destruct (decide (is_Some (load p1 h) ∧ n < INT_MAX)); simpl.
    + rewrite Hf, (run_op_increment o1 p1 _ H1). unfold live. simpl.
      by rewrite decide_True by done.
    + rewrite (run_op_increment o1 p1 _ H1). unfold live. simpl.
      by rewrite decide_False by done.
  - apply receiver_None in H1 as ->. destruct w as [[n c] h].
    destruct (run_func0_quiet c Hq) as (c' & _ & Hf).
    rewrite Hf, (run_op_increment o2 p2 _ H2). unfold live. simpl.
    destruct (decide (is_Some (load p2 h) ∧ n < INT_MAX)); simpl.
    + rewrite Hf, (run_op_increment o2 p2 _ H2). unfold live. simpl.
      by rewrite decide_True by done.
    + rewrite (run_op_increment o2 p2 _ H2). unfold live. simpl.
      by rewrite decide_False by done.
  - apply receiver_None in H1 as ->. by apply receiver_None in H2 as ->.
Qed.

(** X1: with no exception enabled on [std::cout], the outcome of a
    sequence of [foo], [bar] and [func0] calls on the example does not
    depend on the order of the calls: any rearrangement of the sequence,
    run from the same state, returns in the same state or is undefined
    just the same. *)
Theorem run_order_irrelevant os os' :
  os ≡ₚ os' → ∀ w, quiet (cout (glob w)) → run os w = run os' w.
Proof.
  induction 1 as [|o l l' _ IH|o1 o2 l|l1 l2 l3 _ IH1 _ IH2]; intros w Hq.
  - done.
  - cbn [run]. destruct (run_op o w) as [[] w1|e w1|] eqn:Hrun; simpl; auto.
    apply IH. by apply (run_op_quiet o w w1).
  - cbn [run]. by apply (swap_two o2 o1 w (run l)).
  - rewrite IH1 by done. by apply IH2.
Qed.

Lemma run_returns_quiet os : ∀ w,
  quiet (cout (glob w)) →
  receivers_live os w →
  g_count (glob w) + Z.of_nat (increments os) ≤ INT_MAX →
  ∃ w', run os w = Returns tt w'
        ∧ g_count (glob w') = g_count (glob w) + Z.of_nat (increments os)
        ∧ heap w' = heap w.
Proof.
  induction os as [|o os IH]; intros w Hq Hlive Hmax.
  - exists w. simpl. split; [done|]. split; [lia|done].
  - assert (Hrest : ∀ w1, heap w1 = heap w → receivers_live os w1).
    { intros w1 Hh o' p Ho' Hr. apply (live_same_heap p w w1 Hh).
      apply (Hlive o' p); [by right|done]. }
    destruct (receiver o) as [p|] eqn:Hr.
    + assert (Hi : increments (o :: os) = S (increments os))
        by (by destruct o).
      rewrite Hi, Nat2Z.inj_succ in *.
      cbn [run]. rewrite (run_op_increment o p w Hr).
      rewrite decide_True; [|split; [apply (Hlive o p); [by left|done]|lia]].
      simpl.
      destruct (IH (mk_world
                      (mk_globals (g_count (glob w) + 1) (cout (glob w)))
                      (heap w))) as (w' & Hw' & Hg & Hh);
        [done|by apply Hrest|simpl; lia|].
      exists w'. simpl in *. split; [done|]. split; [lia|done].
    + apply receiver_None in Hr as ->. destruct w as [[n c] h].
      destruct (run_func0_quiet c Hq) as (c' & Hq' & Hf).
      cbn [run increments]. rewrite Hf. simpl.
      destruct (IH (mk_world (mk_globals n c') h)) as (w' & Hw' & Hg & Hh);
        [done|by apply Hrest|done|].
      exists w'. simpl in *. done.
Qed.

Lemma run_returns_ready os : ∀ w,
  ready (cout (glob w)) →
  receivers_live os w →
  g_count (glob w) + Z.of_nat (increments os) ≤ INT_MAX →
  ∃ w', run os w = Returns tt w'
        ∧ g_count (glob w') = g_count (glob w) + Z.of_nat (increments os)
        ∧ output (cout (glob w'))
          = output (cout (glob w))
            +:+ copies (prints os)
                  ("calling static f0()" +:+ String "010"%char "")
        ∧ buffer (cout (glob w'))
          = match prints os with
            | O => buffer (cout (glob w))
            | S _ => ""
            end
        ∧ ready (cout (glob w'))
        ∧ heap w' = heap w.
Proof.
  induction os as [|o os IH]; intros w Hrd Hlive Hmax.
  - exists w. simpl. rewrite string_app_nil_r. split; [done|].
    split; [lia|done].
  - assert (Hrest : ∀ w1, heap w1 = heap w → receivers_live os w1).
    { intros w1 Hh o' p Ho' Hr. apply (live_same_heap p w w1 Hh).
      apply (Hlive o' p); [by right|done]. }
    destruct (receiver o) as [p|] eqn:Hr.
    + assert (Hi : increments (o :: os) = S (increments os))
        by (by destruct o).
      assert (Hp : prints (o :: os) = prints os) by (by destruct o).
      rewrite Hi, Hp, Nat2Z.inj_succ in *.
      cbn [run]. rewrite (run_op_increment o p w Hr).
      rewrite decide_True; [|split; [apply (Hlive o p); [by left|done]|lia]].
      simpl.
      destruct (IH (mk_world
                      (mk_globals (g_count (glob w) + 1) (cout (glob w)))
                      (heap w))) as (w' & Hw' & Hg & Ho & Hb & Hr' & Hh);
        [done|by apply Hrest|simpl; lia|].
      exists w'. simpl in *. split; [done|]. split; [lia|done].
    + apply receiver_None in Hr as ->. cbn [run increments prints run_op].
      unfold interface.func0, interface_call_static, call_static.
      destruct (func0_ready (glob w) Hrd) as (c' & -> & Hs & Hb & Hrd' & _).
      simpl.
      destruct (IH (mk_world (mk_globals (g_count (glob w)) c') (heap w)))
        as (w' & Hw' & Hg & Ho & Hbn & Hr' & Hh);
        [done|by apply Hrest|done|].
      exists w'. simpl in *. split; [done|]. split; [done|]. split.
      * rewrite Ho, (output_after_line (cout (glob w)) c' _ Hs Hb).
        by rewrite !string_app_assoc.
      * split; [|done]. rewrite Hbn. by destruct (prints os).
Qed.

(** X2: on a [std::cout] that is good, has no pending width above the
    length of the message and writes to a standard output that takes it,
    a sequence of [foo], [bar] and [func0] calls, interleaved in any way,
    whose receivers are live and whose increments fit below [INT_MAX],
    returns; the counter has grown by the number of [foo] and [bar] calls,
    the characters inserted into the stream by one line
    [calling static f0()] with its newline character per [func0] call,
    nothing is left in the stream buffer once [func0] was called, and the
    store is as it was. *)
Theorem run_counts_calls os w :
  ready (cout (glob w)) →
  receivers_live os w →
  g_count (glob w) + Z.of_nat (increments os) ≤ INT_MAX →
  ∃ w', run os w = Returns tt w'
        ∧ g_count (glob w') = g_count (glob w) + Z.of_nat (increments os)
        ∧ output (cout (glob w'))
          = output (cout (glob w))
            +:+ copies (prints os)
                  ("calling static f0()" +:+ String "010"%char "")
        ∧ (prints os ≠ O → buffer (cout (glob w')) = "")
        ∧ heap w' = heap w.
Proof.
  intros Hrd Hlive Hmax.
  destruct (run_returns_ready os w Hrd Hlive Hmax)
    as (w' & Hw' & Hg & Ho & Hb & _ & Hh).
  exists w'. split; [done|]. split; [done|]. split; [done|].
  split; [|done]. intros Hp. rewrite Hb. by destruct (prints os).
Qed.

Lemma run_never_throws os : ∀ w e w',
  quiet (cout (glob w)) → run os w ≠ Throws e w'.
Proof.
  induction os as [|o os IH]; intros w e w' Hq; [done|].
  cbn [run].
  destruct (run_op o w) as [[] w1|e1 w1|] eqn:Hrun; simpl.
  - apply IH. by apply (run_op_quiet o w w1).
  - exfalso. destruct (receiver o) as [p|] eqn:Hr.
    + rewrite (run_op_increment o p w Hr) in Hrun.
      by destruct (decide (live p w ∧ g_count (glob w) < INT_MAX)).
    + apply receiver_None in Hr as ->. destruct w as [[n c] h].
      destruct (run_func0_quiet c Hq) as (c' & _ & Hf).
      by rewrite Hf in Hrun.
  - done.
Qed.

Lemma run_returns_inv os : ∀ w w',
  quiet (cout (glob w)) →
  g_count (glob w) ≤ INT_MAX →
  run os w = Returns tt w' →
  receivers_live os w
  ∧ g_count (glob w) + Z.of_nat (increments os) ≤ INT_MAX.
Proof.
  induction os as [|o os IH]; intros w w' Hq Hg Hrun.
  - split; [|simpl; lia]. intros o p Ho. by apply elem_of_nil in Ho.
  - cbn [run] in Hrun. destruct (receiver o) as [p|] eqn:Hr.
    + assert (Hi : increments (o :: os) = S (increments os))
        by (by destruct o).
      rewrite Hi, Nat2Z.inj_succ.
      rewrite (run_op_increment o p w Hr) in Hrun.
      destruct (decide (live p w ∧ g_count (glob w) < INT_MAX))
        as [[Hl Hlt]|]; simpl in Hrun; [|done].
      apply IH in Hrun as [Hlive Hmax]; [|done|simpl; lia]. simpl in Hmax.
      split; [|lia].
      intros o' p' Ho' Hr'. apply elem_of_cons in Ho' as [->|Ho'].
      * rewrite Hr in Hr'. by inversion Hr'; subst.
      * by apply (Hlive o' p' Ho' Hr').
    + apply receiver_None in Hr as ->. destruct w as [[n c] h].
      destruct (run_func0_quiet c Hq) as (c' & Hq' & Hf).
      rewrite Hf in Hrun. simpl in Hrun.
      apply IH in Hrun as [Hlive Hmax]; [|done|done]. simpl in Hmax.
      split; [|done].
      intros o' p' Ho' Hr'. apply elem_of_cons in Ho' as [->|Ho'];
        [done|]. by apply (Hlive o' p' Ho' Hr').
Qed.

(** X3: with the counter in the range of [int] and no exception enabled
    on [std::cout], a sequence of calls returns exactly when all its
    receivers are live and the counter plus the number of its [foo] and
    [bar] calls does not exceed [INT_MAX]; in every other case it is
    undefined, and it throws in no case. *)
Theorem run_defined_iff_no_overflow os w :
  quiet (cout (glob w)) →
  g_count (glob w) ≤ INT_MAX →
  ((∃ w', run os w = Returns tt w')
   ↔ receivers_live os w
     ∧ g_count (glob w) + Z.of_nat (increments os) ≤ INT_MAX)
  ∧ (run os w = Undefined
     ↔ ¬ (receivers_live os w
          ∧ g_count (glob w) + Z.of_nat (increments os) ≤ INT_MAX))
  ∧ (∀ e w', run os w ≠ Throws e w').
Proof.
  intros Hq Hg.
  assert (Hret : (∃ w', run os w = Returns tt w')
                 ↔ receivers_live os w
                   ∧ g_count (glob w) + Z.of_nat (increments os) ≤ INT_MAX).
  { split.
    - intros [w' Hw']. by apply (run_returns_inv os w w').
    - intros [Hl Hm].
      destruct (run_returns_quiet os w Hq Hl Hm) as (w' & Hw' & _). eauto. }
  split; [done|]. split; [|intros e w'; by apply run_never_throws].
  rewrite <- Hret. split.
  - intros Hu [w' Hw']. congruence.
  - intros Hn. destruct (run os w) as [[] w'|e w'|] eqn:Hrun.
    + exfalso. apply Hn. eauto.
    + by apply run_never_throws in Hrun.
    + done.
Qed.

End sequences.

Section accessor_and_lifetime.
Context {G DETAILS : Type}.
Implicit Types (p : details_ptr) (x : DETAILS)
  (h : gmap addr (object DETAILS)) (w : world G DETAILS).

(** X4: the two overloads of [details] give coherent views of the one
    member: what is written through the pointer the non-const overload
    returns for a live composed object is what is read through the pointer
    the const overload returns for it, and the write is seen through no
    other composed object, no [B] and no implementation instance on its
    own. *)
Theorem write_through_details_read_through_const (i : interface_ptr) x h :
  is_Some (load (details i) h) →
  load_const (details_const (Const i)) (store (details i) x h) = Some x
  ∧ (∀ j : interface_ptr, j ≠ i →
       load_const (details_const (Const j)) (store (details i) x h)
       = load_const (details_const (Const j)) h)
  ∧ (∀ q : B_ptr,
       load (addr_m_a q) (store (details i) x h) = load (addr_m_a q) h)
  ∧ (∀ l : addr,
       load (DETAILS_at l) (store (details i) x h) = load (DETAILS_at l) h).
Proof.
  intros Hi. split.
  { destruct i as [t]. apply (load_store_eq (d_of t)). }
  split.
  { intros [u] Hne. destruct i as [t].
    apply (load_store_ne (d_of t) (d_of u)); [done|congruence]. }
  split.
  - intros q. by apply load_store_ne.
  - intros l. by apply load_store_ne.
Qed.

(** X5: constructing a composed object and destroying it again gives back
    exactly the state before; and once a composed object is destroyed, it
    cannot be destroyed again and every operation invoked through its
    interface is undefined. *)
Theorem construct_destroy_round_trip (ctor : DETAILS) w :
  delete_type (new_type ctor w).1 (new_type ctor w).2 = Some w
  ∧ (∀ (t : type_ptr) w',
       delete_type t w = Some w' →
       delete_type t w' = None
       ∧ ∀ (E R : Type) (m : method G DETAILS E R),
           interface_call m (to_base t) w' = Undefined).
Proof.
  split.
  - destruct (new_type ctor w) as [[l] w1] eqn:Hn.
    destruct (new_type_fresh _ _ _ _ Hn) as (Hl & Hh & Hg). simpl.
    rewrite Hh, lookup_insert_eq, delete_insert_id by done.
    rewrite Hg. by destruct w.
  - intros [l] w' Hd.
    destruct (delete_type_spec l w w' Hd) as (_ & Hh & _).
    assert (Hl : heap w' !! l = None) by (rewrite Hh; apply lookup_delete_eq).
    split.
    + unfold delete_type. by rewrite Hl.
    + intros E R m. unfold interface_call. apply call_dangling.
      rewrite details_to_base, load_d_of. by rewrite Hl.
Qed.

(** X6: [bar] returns or throws only on a live [B]; the object stays a [B],
    every other complete object is as it was, in particular the
    implementation instance of every composed object, and the same
    instances are live afterwards. *)
Theorem bar_changes_only_its_member {E : Type} (foo : method G DETAILS E unit)
    (l : addr) w w' :
  reached (bar foo (B_at l) w) = Some w' →
  (∃ b b', heap w !! l = Some (O_B b) ∧ heap w' !! l = Some (O_B b'))
  ∧ (∀ k : addr, k ≠ l → heap w' !! k = heap w !! k)
  ∧ (∀ i : interface_ptr,
       load (details i) (heap w') = load (details i) (heap w))
  ∧ (∀ p, live p w' ↔ live p w).
Proof.
  intros Hr. unfold bar, addr_m_a in Hr.
  destruct (call_frame foo (m_a_of (B_at l)) w w' Hr) as (Hk & Hq & Hlive).
  assert (Hb : is_Some (load (m_a_of (B_at l)) (heap w))).
  { unfold call in Hr. destruct (load (m_a_of (B_at l)) (heap w)); eauto.
    done. }
  split.
  { apply Hlive in Hb as Hb'. simpl in Hb, Hb'.
    destruct (heap w !! l) as [[| b |]|]; try by destruct Hb.
    destruct (heap w' !! l) as [[| b' |]|]; try by destruct Hb'.
    eauto. }
  split; [intros k Hne; apply Hk; simpl; congruence|].
  split; [|done].
  intros [t]. by apply Hq.
Qed.

End accessor_and_lifetime.

(** * The further properties at concrete states *)

Lemma write_through_details_read_through_const_witness :
  load_const (details_const (Const (base_of (type_at 1%positive))))
    (store (details (base_of (type_at 1%positive))) details.mk_A
       (heap (three_objects 5)))
  = Some details.mk_A.
Proof.
  destruct (write_through_details_read_through_const
              (base_of (type_at 1%positive)) details.mk_A
              (heap (three_objects 5))) as [H _].
  - exists details.mk_A. reflexivity.
  - exact H.
Defined.

Lemma construct_destroy_round_trip_witness :
  delete_type (type_at 1%positive) (three_objects 5)
  = Some (mk_world (glob (three_objects 5))
            (delete 1%positive (heap (three_objects 5))))
  ∧ interface_call (E:=Empty_set) details.foo (to_base (type_at 1%positive))
      (mk_world (glob (three_objects 5))
         (delete 1%positive (heap (three_objects 5))))
    = Undefined.
Proof.
  split; [reflexivity|].
  destruct (construct_destroy_round_trip details.mk_A (three_objects 5))
    as [_ H].
  destruct (H (type_at 1%positive)
              (mk_world (glob (three_objects 5))
                 (delete 1%positive (heap (three_objects 5)))))
    as [_ Hu]; [reflexivity|].
  apply Hu.
Defined.

Lemma bar_changes_only_its_member_witness :
  reached (bar (E:=Empty_set) details.foo (B_at 2%positive) (three_objects 5))
  = Some (three_objects 6)
  ∧ ∀ i : interface_ptr,
      load (details i) (heap (three_objects 6))
      = load (details i) (heap (three_objects 5)).
Proof.
  split; [reflexivity|].
  apply (bar_changes_only_its_member (E:=Empty_set) details.foo
           2%positive (three_objects 5) (three_objects 6)).
  reflexivity.
Defined.

Example func0_on_initial_cout :
  interface.func0 (three_objects 5)
  = Returns tt
      (mk_world
         (mk_globals 5
            (mk_ostream goodbit goodbit 0 " "%char false false ""
               ("calling static f0()" +:+ String "010"%char "") true
               a_library))
         (heap (three_objects 5))).
Proof. reflexivity. Qed.

Lemma func0_writes_fixed_message_witness :
  ∃ w', interface.func0 (three_objects 5) = Returns tt w'
        ∧ sink (cout (glob w'))
          = sink (cout (glob (three_objects 5)))
            +:+ buffer (cout (glob (three_objects 5)))
            +:+ "calling static f0()" +:+ String "010"%char ""
        ∧ buffer (cout (glob w')) = ""
        ∧ ready (cout (glob w'))
        ∧ g_count (glob w') = g_count (glob (three_objects 5))
        ∧ heap w' = heap (three_objects 5).
Proof.
  apply (func0_writes_fixed_message (three_objects 5)).
  split; [reflexivity|]. split; [vm_compute; discriminate|reflexivity].
Defined.

(** C8 as stated fails: after [std::cout << std::setw(25)] the message
    reaches the standard output behind six fill characters, and on a
    standard output that takes nothing it does not reach it at all;
    [func0] returns in both cases. *)
Lemma func0_does_not_always_write_the_message :
  match interface.func0 (only_cout cout_setw_25) with
  | Returns _ w' =>
      sink (cout (glob w'))
      = "      calling static f0()" +:+ String "010"%char ""
      ∧ sink (cout (glob w'))
        ≠ sink cout_setw_25 +:+ buffer cout_setw_25
          +:+ "calling static f0()" +:+ String "010"%char ""
  | _ => False
  end
  ∧ match interface.func0 (only_cout cout_closed) with
    | Returns _ w' =>
        sink (cout (glob w')) = ""
        ∧ has_badbit (rdstate (cout (glob w'))) = true
        ∧ sink (cout (glob w'))
          ≠ sink cout_closed +:+ buffer cout_closed
            +:+ "calling static f0()" +:+ String "010"%char ""
    | _ => False
    end.
Proof. vm_compute. repeat split; discriminate. Qed.

Lemma run_order_irrelevant_witness :
  run [op_func0; op_bar (B_at 2%positive); op_foo (DETAILS_at 3%positive)]
    (three_objects 5)
  = run [op_foo (DETAILS_at 3%positive); op_func0; op_bar (B_at 2%positive)]
      (three_objects 5).
Proof.
  apply run_order_irrelevant.
  - apply Permutation_sym.
    apply (Permutation_cons_append
             [op_func0; op_bar (B_at 2%positive)]
             (op_foo (DETAILS_at 3%positive))).
  - reflexivity.
Defined.

Lemma three_objects_receivers_live (n : Z) os :
  Forall (λ o, o ∈ [op_func0; op_bar (B_at 2%positive);
                    op_foo (DETAILS_at 3%positive);
                    op_interface_foo (base_of (type_at 1%positive))]) os →
  receivers_live os (three_objects n).
Proof.
  intros Hall o p Ho Hr. rewrite Forall_forall in Hall.
  specialize (Hall o Ho).
  repeat (apply elem_of_cons in Hall as [->|Hall]);
    [done|inversion Hr; by eexists..|by apply elem_of_nil in Hall].
Defined.

Lemma run_counts_calls_witness :
  ∃ w', run [op_interface_foo (base_of (type_at 1%positive)); op_func0;
             op_bar (B_at 2%positive); op_func0;
             op_foo (DETAILS_at 3%positive)]
          (three_objects 5) = Returns tt w'
        ∧ g_count (glob w') = 5 + Z.of_nat 3
        ∧ output (cout (glob w'))
          = output (cout (glob (three_objects 5)))
            +:+ copies 2 ("calling static f0()" +:+ String "010"%char "")
        ∧ (2%nat ≠ O → buffer (cout (glob w')) = "")
        ∧ heap w' = heap (three_objects 5).
Proof.
  apply (run_counts_calls
           [op_interface_foo (base_of (type_at 1%positive)); op_func0;
            op_bar (B_at 2%positive); op_func0;
            op_foo (DETAILS_at 3%positive)]
           (three_objects 5)).
  - split; [reflexivity|]. split; [vm_compute; discriminate|reflexivity].
  - apply three_objects_receivers_live. repeat constructor.
  - vm_compute. discriminate.
Defined.

Lemma run_defined_iff_no_overflow_witness :
  run [op_func0; op_foo (DETAILS_at 3%positive); op_bar (B_at 2%positive)]
    (three_objects (INT_MAX - 1)) = Undefined.
Proof.
  destruct (run_defined_iff_no_overflow
              [op_func0; op_foo (DETAILS_at 3%positive);
               op_bar (B_at 2%positive)]
              (three_objects (INT_MAX - 1))) as (_ & Hu & _).
  - reflexivity.
  - vm_compute. discriminate.
  - apply Hu. intros [_ Hmax]. vm_compute in Hmax. by apply Hmax.
Defined.

(** Why X1 asks for no exception to be enabled: with [badbit] in the
    exception mask and a standard output that takes nothing, [func0]
    throws, and the counter at the throw depends on whether [foo] ran
    before it. *)
Example order_matters_when_func0_throws :
  run [op_func0; op_foo (DETAILS_at 3%positive)]
    (mk_world
       (mk_globals 5
          (mk_ostream goodbit badbit 0 " "%char false false "" "" false
             a_library))
       (heap (three_objects 5)))
  ≠ run [op_foo (DETAILS_at 3%positive); op_func0]
      (mk_world
         (mk_globals 5
            (mk_ostream goodbit badbit 0 " "%char false false "" "" false
               a_library))
         (heap (three_objects 5))).
Proof. vm_compute. discriminate. Qed.
